(** * scripts/export_games_to_csv.py: the YAML-to-CSV export, embedded and verified

    The script loads every [*.yaml] file of the games directory, flattens
    each game record into a row and writes the rows as one CSV table.  The
    definitions below follow the Python functions one by one and keep their
    names.  Python's dynamic values are an inductive type, its exceptions
    are an error monad, and the side effects of the script (lines printed,
    the output file being opened and written) are a trace of events. *)

From Stdlib Require Import ZArith String Ascii List DecimalString.
From stdpp Require Import gmap strings list fin_maps sorting.

Open Scope string_scope.
Open Scope list_scope.

#[local] Set Warnings "-clear-no-such-hyp".

(** ** Values handed over by [yaml.safe_load] *)

(** A scalar of a YAML document.  The script looks at a scalar only through
    [bool(x)] and [str(x)]: a float is carried as whether it differs from
    zero together with its text, a date (or datetime) as its ISO text. *)
Inductive scalar :=
| SNone
| SBool (b : bool)
| SInt (n : Z)
| SFloat (nonzero : bool) (text : string)
| SStr (s : string)
| SDate (iso : string).

(** The value of a field of a record: a scalar, a sequence of scalars, or
    a nested mapping with string keys (kept in insertion order, as a Python
    dict iterates). *)
Inductive value :=
| VScalar (x : scalar)
| VList (items : list scalar)
| VDict (d : list (string * scalar)).

Definition VStr (s : string) : value := VScalar (SStr s).

(** A game record is used as a map only ([game.get]); so is a row. *)
Abbreviation record := (gmap string value).
Abbreviation row := (gmap string value).

#[global] Instance scalar_eq_dec : EqDecision scalar.
Proof. solve_decision. Defined.

#[global] Instance value_eq_dec : EqDecision value.
Proof. solve_decision. Defined.

(** ** Exceptions *)

Inductive exn :=
| TypeError
| KeyError
| ValueError
| SystemExit (code : Z).

Inductive result (A : Type) :=
| Ok (a : A)
| Raise (e : exn).
Arguments Ok {A} a.
Arguments Raise {A} e.

#[global] Instance exn_eq_dec : EqDecision exn.
Proof. solve_decision. Defined.

#[global] Instance result_eq_dec `{EqDecision A} : EqDecision (result A).
Proof. solve_decision. Defined.

#[global] Instance result_ret : MRet result := fun A a => Ok a.
#[global] Instance result_bind : MBind result := fun A B f m =>
  match m with
  | Ok a => f a
  | Raise e => Raise e
  end.

(** ** Python built-ins the script relies on *)

(** [str(x)] on a scalar. *)
Definition py_str (x : scalar) : string :=
  match x with
  | SNone => "None"
  | SBool true => "True"
  | SBool false => "False"
  | SInt n => NilZero.string_of_int (Z.to_int n)
  | SFloat _ text => text
  | SStr s => s
  | SDate iso => iso
  end.

(** [bool(x)], the test behind [if not x]. *)
Definition scalar_truthy (x : scalar) : bool :=
  match x with
  | SNone => false
  | SBool b => b
  | SInt n => negb (n =? 0)%Z
  | SFloat nonzero _ => nonzero
  | SStr s => negb (String.eqb s "")
  | SDate _ => true
  end.

Definition truthy (v : value) : bool :=
  match v with
  | VScalar x => scalar_truthy x
  | VList [] => false
  | VList (_ :: _) => true
  | VDict [] => false
  | VDict (_ :: _) => true
  end.

(** The characters of a string, each as a one-character string: what
    iterating over a [str] yields. *)
Fixpoint chars (s : string) : list string :=
  match s with
  | EmptyString => []
  | String c s' => String c EmptyString :: chars s'
  end.

(** [iter(v)]: the items a [for] loop or a generator draws from [v]. *)
Definition py_iter (v : value) : result (list scalar) :=
  match v with
  | VList items => Ok items
  | VDict d => Ok (SStr <$> d.*1)
  | VScalar (SStr s) => Ok (SStr <$> chars s)
  | VScalar _ => Raise TypeError
  end.

(** [sep.join(parts)] *)
Definition join (sep : string) (parts : list string) : string :=
  String.concat sep parts.

(** [p in s] for two strings: [p] occurs in [s]. *)
Fixpoint is_substring (p s : string) : bool :=
  match s with
  | EmptyString => String.prefix p EmptyString
  | String _ s' => String.prefix p s || is_substring p s'
  end.

(** Lookup in a dict kept as an association list. *)
Fixpoint assoc (k : string) (d : list (string * scalar)) : option scalar :=
  match d with
  | [] => None
  | (k', v) :: d' => if String.eqb k k' then Some v else assoc k d'
  end.

(** [key in v] for a string [key]. *)
Definition py_contains (key : string) (v : value) : result bool :=
  match v with
  | VDict d => Ok (bool_decide (is_Some (assoc key d)))
  | VList items => Ok (bool_decide (SStr key ∈ items))
  | VScalar (SStr s) => Ok (is_substring key s)
  | VScalar _ => Raise TypeError
  end.

(** [v[key]] for a string [key]: only a dict can be indexed by a string. *)
Definition py_getitem (v : value) (key : string) : result scalar :=
  match v with
  | VDict d =>
      match assoc key d with
      | Some x => Ok x
      | None => Raise KeyError
      end
  | _ => Raise TypeError
  end.

(** [game.get(key, default)] *)
Definition get (game : record) (key : string) (default : value) : value :=
  match game !! key with
  | Some v => v
  | None => default
  end.

(** ** Value flattening *)

(** [flatten_list(items)] *)
Definition flatten_list (items : value) : result string :=
  if negb (truthy items) then Ok ""
  else
    its ← py_iter items;
    Ok (join "; " (py_str <$> its)).


(** ** The video sub-schema *)

Definition platforms : list string := ["youtube"; "vimeo"; "moddb"; "indiedb"].

Definition video_column (platform : string) : string := "video_" +:+ platform.

(** The [for platform in ...] loop of [extract_video_info]. *)
Fixpoint video_loop (ps : list string) (video_data : value) (res : row)
  : result row :=
  match ps with
  | [] => Ok res
  | platform :: ps' =>
      present ← py_contains platform video_data;
      if (present : bool) then
        x ← py_getitem video_data platform;
        video_loop ps' video_data (<[video_column platform := VStr (py_str x)]> res)
      else
        video_loop ps' video_data (<[video_column platform := VStr ""]> res)
  end.

(** [extract_video_info(video_data)] *)
Definition extract_video_info (video_data : value) : result row :=
  let res : row := ∅ in
  if negb (truthy video_data) then Ok res
  else video_loop platforms video_data res.

(** ** The record projector *)

(** [process_game_data(game)] *)
Definition process_game_data (game : record) : result row :=
  let processed : row := ∅ in
  let processed := <["name" := get game "name" (VStr "")]> processed in
  let processed := <["type" := get game "type" (VStr "")]> processed in
  let processed := <["status" := get game "status" (VStr "")]> processed in
  let processed := <["development" := get game "development" (VStr "")]> processed in
  let processed := <["content" := get game "content" (VStr "")]> processed in
  let processed := <["repo" := get game "repo" (VStr "")]> processed in
  let processed := <["url" := get game "url" (VStr "")]> processed in
  let processed := <["feed" := get game "feed" (VStr "")]> processed in
  let processed := <["info" := get game "info" (VStr "")]> processed in
  let processed := <["added" := get game "added" (VStr "")]> processed in
  let processed := <["updated" := get game "updated" (VStr "")]> processed in
  originals ← flatten_list (get game "originals" (VList []));
  let processed := <["originals" := VStr originals]> processed in
  langs ← flatten_list (get game "langs" (VList []));
  let processed := <["langs" := VStr langs]> processed in
  frameworks ← flatten_list (get game "frameworks" (VList []));
  let processed := <["frameworks" := VStr frameworks]> processed in
  licenses ← flatten_list (get game "licenses" (VList []));
  let processed := <["licenses" := VStr licenses]> processed in
  images ← flatten_list (get game "images" (VList []));
  let processed := <["images" := VStr images]> processed in
  multiplayer ← flatten_list (get game "multiplayer" (VList []));
  let processed := <["multiplayer" := VStr multiplayer]> processed in
  video_info ← extract_video_info (get game "video" (VDict []));
  (* processed.update(video_info): the keys of video_info win *)
  Ok (video_info ∪ processed).

(** ** The field-set resolver *)

Definition ordered_fields : list string :=
  [ "name"; "type"; "status"; "development"; "content";
    "originals"; "repo"; "url"; "feed"; "info";
    "langs"; "frameworks"; "licenses"; "multiplayer";
    "images"; "video_youtube"; "video_vimeo"; "video_moddb"; "video_indiedb";
    "added"; "updated" ].

(** The [for game in games_data] loop of [get_all_field_names]. *)
Fixpoint collect_field_names (games_data : list record) (field_names : gset string)
  : result (gset string) :=
  match games_data with
  | [] => Ok field_names
  | game :: rest =>
      processed ← process_game_data game;
      collect_field_names rest (field_names ∪ dom processed)
  end.

(** [sorted(s)] on a set of strings: ascending by code point. *)
Definition py_sorted (s : gset string) : list string :=
  merge_sort String.le (elements s).

(** [get_all_field_names(games_data)] *)
Definition get_all_field_names (games_data : list record) : result (list string) :=
  field_names ← collect_field_names games_data ∅;
  let additional_fields := py_sorted (field_names ∖ (list_to_set ordered_fields : gset string)) in
  Ok (ordered_fields ++ additional_fields).

(** ** Effects: what the script prints and what it does to the output file *)

Inductive event :=
| Print (line : string)
| OpenOutput (path : string)
| WriteRow (cells : list value)
| CloseOutput.

#[global] Instance event_eq_dec : EqDecision event.
Proof. solve_decision. Defined.

(** ** The source loader *)

(** What opening and parsing one file gives: an exception with its text,
    or the document: [None] for an empty file, else a sequence of records. *)
Inductive parse_outcome :=
| Failed (cause : string)
| Parsed (doc : option (list record)).

(** A file of the directory listing: its name and what parsing it gives. *)
Definition yaml_file : Type := string * parse_outcome.

Definition file_le (f1 f2 : yaml_file) : Prop := String.le f1.1 f2.1.

#[global] Instance file_le_dec : RelDecision file_le.
Proof. intros f1 f2. unfold file_le. apply _. Defined.

(** The body of the [try] block: [yaml.safe_load] and [extend]. *)
Definition load_file (content : parse_outcome) (all_games : list record)
  : string + list record :=
  match content with
  | Failed cause => inl cause
  | Parsed None => inr all_games
  | Parsed (Some games) =>
      if bool_decide (games = []) then inr all_games
      else inr (all_games ++ games)
  end.

(** The [for yaml_file in yaml_files] loop, with its [try]/[except]. *)
Fixpoint load_loop (yaml_files : list yaml_file) (all_games : list record)
  : list event * list record :=
  match yaml_files with
  | [] => ([], all_games)
  | (name, content) :: rest =>
      let processing := Print ("Processing " +:+ name +:+ "...") in
      match load_file content all_games with
      | inr all_games' =>
          let (out, res) := load_loop rest all_games' in
          (processing :: out, res)
      | inl e =>
          let (out, res) := load_loop rest all_games in
          (processing :: Print ("Error processing " +:+ name +:+ ": " +:+ e) :: out, res)
      end
  end.

(** [load_games_from_yaml_files(games_dir)], on the files the glob finds. *)
Definition load_games_from_yaml_files (listing : list yaml_file)
  : list event * list record :=
  let yaml_files := merge_sort file_le listing in
  load_loop yaml_files [].

(** ** [csv.DictWriter], up to the cells it hands to the underlying writer *)

(** [DictWriter._dict_to_list] with the defaults [restval=""] and
    [extrasaction="raise"]. *)
Definition dict_to_list (fieldnames : list string) (rowdict : row)
  : result (list value) :=
  if bool_decide (dom rowdict ⊆ (list_to_set fieldnames : gset string))
  then Ok ((fun key => get rowdict key (VStr "")) <$> fieldnames)
  else Raise ValueError.

(** [writer.writerows(rows)]: rows are written until one raises. *)
Fixpoint writerows (fieldnames : list string) (rows : list row)
  : list event * result unit :=
  match rows with
  | [] => ([], Ok tt)
  | r :: rest =>
      match dict_to_list fieldnames r with
      | Ok cells =>
          let (out, res) := writerows fieldnames rest in
          (WriteRow cells :: out, res)
      | Raise e => ([], Raise e)
      end
  end.

(** [writer.writeheader()]: the row that maps every field name to itself. *)
Definition writeheader (fieldnames : list string) : list event :=
  [WriteRow (VStr <$> fieldnames)].

(** ** The export driver *)

(** The list comprehension [[process_game_data(game) for game in games_data]]. *)
Fixpoint process_all (games_data : list record) : result (list row) :=
  match games_data with
  | [] => Ok []
  | game :: rest =>
      r ← process_game_data game;
      rs ← process_all rest;
      Ok (r :: rs)
  end.

Definition show_nat (n : nat) : string := NilZero.string_of_uint (Nat.to_uint n).

(** [export_to_csv(games_data, output_file)] *)
Definition export_to_csv (games_data : list record) (output_file : string)
  : list event * result unit :=
  if bool_decide (games_data = []) then
    ([Print "No games data to export."], Ok tt)
  else
    match get_all_field_names games_data with
    | Raise e => ([], Raise e)
    | Ok field_names =>
        match process_all games_data with
        | Raise e => ([], Raise e)
        | Ok processed_games =>
            let (written, res) := writerows field_names processed_games in
            let file := OpenOutput output_file :: writeheader field_names
                          ++ written ++ [CloseOutput] in
            match res with
            | Raise e => (file, Raise e)
            | Ok _ =>
                (file ++
                 [ Print ("Exported " +:+ show_nat (length processed_games)
                          +:+ " games to " +:+ output_file);
                   Print ("Fields: " +:+ join ", " field_names) ],
                 Ok tt)
            end
        end
    end.

(** What the script finds when it starts: its two paths, and the files
    matching [*.yaml] in the games directory ([None]: no such directory). *)
Record environment := {
  games_dir : string;
  output_file : string;
  listing : option (list yaml_file)
}.

(** [main()] *)
Definition main (env : environment) : list event * result unit :=
  match listing env with
  | None =>
      ([Print ("Games directory not found: " +:+ games_dir env)],
       Raise (SystemExit 1))
  | Some files =>
      let (loading, games_data) := load_games_from_yaml_files files in
      let out := Print "Loading games from YAML files..." :: loading in
      if bool_decide (games_data = []) then
        (out ++ [Print "No games found in YAML files."], Raise (SystemExit 1))
      else
        let out := out ++
          [ Print ("Loaded " +:+ show_nat (length games_data)
                   +:+ " games from YAML files.");
            Print "Exporting to CSV..." ] in
        let (exporting, res) := export_to_csv games_data (output_file env) in
        match res with
        | Raise e => (out ++ exporting, Raise e)
        | Ok _ =>
            (out ++ exporting ++
             [Print ("Export complete! CSV file saved to: " +:+ output_file env)],
             Ok tt)
        end
  end.

(** The exit status of the interpreter: 0 when [main] returns, the code of
    [sys.exit], 1 for any other exception that nobody caught. *)
Definition exit_status (res : result unit) : Z :=
  match res with
  | Ok _ => 0
  | Raise (SystemExit code) => code
  | Raise _ => 1
  end.

Definition run (env : environment) : list event * Z :=
  let (out, res) := main env in (out, exit_status res).

(** ** Vocabulary of the properties *)

(** [s.split(sep)] for a non-empty separator: scanning from the left, every
    occurrence of [sep] ends a piece.  [skip] counts the characters of an
    occurrence still to be passed over, [cur] is the piece being read. *)
Fixpoint split_go (sep s : string) (skip : nat) (cur : string) : list string :=
  match s with
  | EmptyString => [cur]
  | String c s' =>
      match skip with
      | S k => split_go sep s' k cur
      | O =>
          if String.prefix sep s
          then cur :: split_go sep s' (String.length sep - 1) EmptyString
          else split_go sep s' 0 (cur +:+ String c EmptyString)
      end
  end.

Definition split (sep s : string) : list string := split_go sep s 0 EmptyString.


(** The call returns: no exception. *)
Definition is_Ok {A} (m : result A) : Prop := ∃ a, m = Ok a.

Definition is_open (e : event) : bool :=
  match e with OpenOutput _ => true | _ => false end.

(** The output file is opened somewhere in the trace. *)
Definition opens_output (out : list event) : bool := existsb is_open out.

(** The rows written, in order: the header first. *)
Fixpoint written_rows (out : list event) : list (list value) :=
  match out with
  | [] => []
  | WriteRow cells :: rest => cells :: written_rows rest
  | _ :: rest => written_rows rest
  end.

Definition data_rows (out : list event) : list (list value) :=
  tail (written_rows out).

(** The records of a file that the loader keeps. *)
Definition records_of (f : yaml_file) : list record :=
  match f.2 with
  | Parsed (Some games) => games
  | _ => []
  end.

Definition is_string (v : value) : Prop := ∃ s, v = VStr s.

Definition scalar_fields : list string :=
  [ "name"; "type"; "status"; "development"; "content"; "repo"; "url";
    "feed"; "info"; "added"; "updated" ].

Definition list_fields : list string :=
  [ "originals"; "langs"; "frameworks"; "licenses"; "images"; "multiplayer" ].

Definition video_fields : list string := video_column <$> platforms.

(** A record as the data model documents it: the six sequence fields hold
    sequences and the video field holds a mapping, where present. *)
Definition well_shaped (game : record) : Prop :=
  (∀ k, k ∈ list_fields → ∀ v, game !! k = Some v → ∃ items, v = VList items) ∧
  (∀ v, game !! "video" = Some v → ∃ d, v = VDict d).

(** The text of a platform's column for a video mapping [d]. *)
Definition video_cell (d : list (string * scalar)) (platform : string) : string :=
  match assoc platform d with
  | Some x => py_str x
  | None => ""
  end.

(** The row [process_game_data] has built before it looks at the video
    field, given the six flattened sequences. *)
Definition base_row (game : record)
    (originals langs frameworks licenses images multiplayer : string) : row :=
  <["multiplayer" := VStr multiplayer]> (
  <["images" := VStr images]> (
  <["licenses" := VStr licenses]> (
  <["frameworks" := VStr frameworks]> (
  <["langs" := VStr langs]> (
  <["originals" := VStr originals]> (
  <["updated" := get game "updated" (VStr "")]> (
  <["added" := get game "added" (VStr "")]> (
  <["info" := get game "info" (VStr "")]> (
  <["feed" := get game "feed" (VStr "")]> (
  <["url" := get game "url" (VStr "")]> (
  <["repo" := get game "repo" (VStr "")]> (
  <["content" := get game "content" (VStr "")]> (
  <["development" := get game "development" (VStr "")]> (
  <["status" := get game "status" (VStr "")]> (
  <["type" := get game "type" (VStr "")]> (
  <["name" := get game "name" (VStr "")]> ∅)))))))))))))))).

(** Strictly ascending order of strings, by code point. *)
Definition string_lt (s1 s2 : string) : Prop := String.ltb s1 s2 = true.

(** What the loader prints for one file. *)
Definition file_lines (f : yaml_file) : list event :=
  Print ("Processing " +:+ f.1 +:+ "...") ::
  match f.2 with
  | Failed cause => [Print ("Error processing " +:+ f.1 +:+ ": " +:+ cause)]
  | Parsed _ => []
  end.

(** The cells [DictWriter] hands over for a row whose keys are all columns. *)
Definition row_cells (fieldnames : list string) (r : row) : list value :=
  (fun key => get r key (VStr "")) <$> fieldnames.

(** Everything [export_to_csv] does when it succeeds on [rows]. *)
Definition export_trace (output_file : string) (rows : list row) : list event :=
  OpenOutput output_file :: WriteRow (VStr <$> ordered_fields) ::
  (WriteRow <$> (row_cells ordered_fields <$> rows)) ++
  [ CloseOutput;
    Print ("Exported " +:+ show_nat (length rows) +:+ " games to " +:+ output_file);
    Print ("Fields: " +:+ join ", " ordered_fields) ].

#[global] Instance file_le_total : Total file_le.
Proof. intros f1 f2. unfold file_le. apply (total String.le). Qed.

#[global] Instance file_le_trans : Transitive file_le.
Proof. intros f1 f2 f3. unfold file_le. apply (transitivity (R := String.le)). Qed.

(** The lines the loader prints and the records it returns, for a listing. *)
Definition loading_lines (files : list yaml_file) : list event :=
  concat (file_lines <$> merge_sort file_le files).

Definition loaded_games (files : list yaml_file) : list record :=
  concat (records_of <$> merge_sort file_le files).

Definition is_print (e : event) : bool :=
  match e with Print _ => true | _ => false end.

(** What [main] prints before it decides whether anything was loaded. *)
Definition loading_trace (files : list yaml_file) : list event :=
  Print "Loading games from YAML files..." :: loading_lines files.

Definition loaded_trace (files : list yaml_file) : list event :=
  loading_trace files ++
  [ Print ("Loaded " +:+ show_nat (length (loaded_games files))
           +:+ " games from YAML files.");
    Print "Exporting to CSV..." ].

(** ** Shapes that project *)


(** The values on which [flatten_list] returns: the falsy ones and the
    iterable ones. *)
Definition flattens (v : value) : bool :=
  match v with
  | VScalar (SStr _) | VList _ | VDict _ => true
  | VScalar x => negb (scalar_truthy x)
  end.

(** The values on which [extract_video_info] returns: the falsy ones, the
    mappings, and the strings and sequences in which no platform name
    occurs. *)
Definition extracts (v : value) : bool :=
  match v with
  | VDict _ => true
  | VList items => forallb (fun p => negb (bool_decide (SStr p ∈ items))) platforms
  | VScalar (SStr s) => forallb (fun p => negb (is_substring p s)) platforms
  | VScalar x => negb (scalar_truthy x)
  end.

(** The records on which [process_game_data] returns. *)
Definition projectable (game : record) : bool :=
  forallb (fun k => flattens (get game k (VList []))) list_fields
  && extracts (get game "video" (VDict [])).

(** The four video columns, all empty. *)
Definition empty_video_columns : row :=
  <["video_indiedb" := VStr ""]> (<["video_moddb" := VStr ""]> (
  <["video_vimeo" := VStr ""]> (<["video_youtube" := VStr ""]> ∅))).

(** The keys of a record that [process_game_data] reads. *)
Definition recognized_fields : list string :=
  scalar_fields ++ list_fields ++ ["video"].

(** The file was opened and parsed. *)
Definition is_parsed (f : yaml_file) : bool :=
  match f.2 with
  | Parsed _ => true
  | Failed _ => false
  end.

(** ** Sample inputs *)

(** The record of the first end-to-end scenario of the specification. *)
Definition game_foo : record :=
  <["name" := VStr "Foo"]> (<["langs" := VList [SStr "en"; SStr "fr"]]> ∅).

(** A record whose name is null, and one whose sequence field is a number. *)
Definition game_null_name : record := <["name" := VScalar SNone]> ∅.

(** The video mapping of the second end-to-end scenario, with one more key. *)
Definition video_x : list (string * scalar) :=
  [("youtube", SStr "http://x"); ("twitch", SStr "http://t")].

(** The rows of [game_foo] and of the record without any field. *)
Definition row_foo : row := base_row game_foo "" "en; fr" "" "" "" "".
Definition row_empty : row := base_row ∅ "" "" "" "" "" "".

(** The row of [game_null_name]. *)
Definition row_null_name : row := base_row game_null_name "" "" "" "" "" "".

(** A record with a video mapping. *)
Definition game_video : record := <["video" := VDict video_x]> ∅.


Definition files_ab : list yaml_file :=
  [("b.yaml", Failed "mapping values are not allowed here");
   ("a.yaml", Parsed (Some [game_foo; game_video]))].

Definition env_ab : environment :=
  {| games_dir := "/repo/games"; output_file := "/repo/games_export.csv";
     listing := Some files_ab |}.

Definition row_video : row :=
  <["video_indiedb" := VStr ""]> (<["video_moddb" := VStr ""]> (
  <["video_vimeo" := VStr ""]> (<["video_youtube" := VStr "http://x"]> row_empty))).

(** [game_foo] with a field the projector does not know. *)
Definition game_foo_extra : record := <["platform" := VStr "PC"]> game_foo.

(** The listing [files_ab] as the file system may also return it. *)
Definition files_ba : list yaml_file :=
  [("a.yaml", Parsed (Some [game_foo; game_video]));
   ("b.yaml", Failed "mapping values are not allowed here")].

(** * Properties *)

(** A closed decidable proposition, settled by evaluation. *)
Ltac by_decide :=
  match goal with |- ?P => apply (bool_decide_unpack P) end; vm_compute; exact I.

(** Case analysis on membership in a list given by its elements. *)
Ltac each_member H :=
  repeat (apply elem_of_cons in H as [->|H]); [..| by apply elem_of_nil in H].

(** ** The error monad *)

Lemma bind_Ok {A B} (f : A → result B) (m : result A) (b : B) :
  m ≫= f = Ok b ↔ ∃ a, m = Ok a ∧ f a = Ok b.
Proof.
  destruct m as [a|e]; simpl; split.
  - intros H. exists a. split; [reflexivity | exact H].
  - intros (a' & Ha & H). injection Ha as ->. exact H.
  - discriminate.
  - intros (a' & Ha & _). discriminate.
Qed.

(** ** Strings: append, join and split *)












(** ** Value flattening *)

Lemma flatten_list_nonempty (x : scalar) (items : list scalar) :
  flatten_list (VList (x :: items)) = Ok (join "; " (py_str <$> x :: items)).
Proof. reflexivity. Qed.


Lemma py_str_SStr (l : list string) : py_str <$> (SStr <$> l) = l.
Proof. induction l as [|x l IH]; [reflexivity|]. simpl. f_equal. exact IH. Qed.



(** ** The video sub-schema *)

Lemma video_loop_dict (ps : list string) (d : list (string * scalar)) (res : row) :
  video_loop ps (VDict d) res =
  Ok (foldl (fun r p => <[video_column p := VStr (video_cell d p)]> r) res ps).
Proof.
  revert res. induction ps as [|p ps IH]; intros res; [reflexivity|].
  cbn [video_loop py_contains py_getitem mbind result_bind foldl].
  unfold video_cell at 2.
  destruct (assoc p d) as [x|] eqn:E.
  - rewrite bool_decide_eq_true_2 by eauto. apply IH.
  - rewrite bool_decide_eq_false_2 by (intros [? ?]; discriminate). apply IH.
Qed.

Lemma video_loop_dom (ps : list string) (v : value) (res0 res : row) :
  video_loop ps v res0 = Ok res →
  dom res = dom res0 ∪ list_to_set (video_column <$> ps).
Proof.
  revert res0. induction ps as [|p ps IH]; intros res0 H.
  - injection H as <-. set_solver.
  - cbn [video_loop] in H. apply bind_Ok in H as (present & _ & H).
    destruct present.
    + apply bind_Ok in H as (x & _ & H). apply IH in H.
      rewrite H, dom_insert_L. set_solver.
    + apply IH in H. rewrite H, dom_insert_L. set_solver.
Qed.

Lemma video_loop_strings (ps : list string) (v : value) (res0 res : row) :
  video_loop ps v res0 = Ok res →
  (∀ k x, res0 !! k = Some x → is_string x) →
  ∀ k x, res !! k = Some x → is_string x.
Proof.
  revert res0. induction ps as [|p ps IH]; intros res0 H Hres0.
  - by injection H as <-.
  - cbn [video_loop] in H. apply bind_Ok in H as (present & _ & H).
    assert (∀ s k x, <[video_column p := VStr s]> res0 !! k = Some x → is_string x)
      as Hins.
    { intros s k x. rewrite lookup_insert. case_decide.
      - intros [= <-]. by exists s.
      - apply Hres0. }
    destruct present.
    + apply bind_Ok in H as (y & _ & H). eapply IH; [exact H | apply Hins].
    + eapply IH; [exact H | apply Hins].
Qed.

Lemma extract_video_info_dom (v : value) (res : row) :
  extract_video_info v = Ok res →
  dom res = if truthy v then list_to_set video_fields else ∅.
Proof.
  unfold extract_video_info. destruct (truthy v); cbn [negb].
  - intros H. apply video_loop_dom in H. rewrite H. unfold video_fields. set_solver.
  - intros [= <-]. set_solver.
Qed.

Lemma extract_video_info_strings (v : value) (res : row) :
  extract_video_info v = Ok res → ∀ k x, res !! k = Some x → is_string x.
Proof.
  unfold extract_video_info. destruct (truthy v); cbn [negb].
  - intros H. eapply video_loop_strings; [exact H|]. intros k x. by rewrite lookup_empty.
  - intros [= <-] k x. by rewrite lookup_empty.
Qed.

Lemma extract_video_info_dict (d : list (string * scalar)) :
  d ≠ [] →
  extract_video_info (VDict d) =
  Ok (<["video_indiedb" := VStr (video_cell d "indiedb")]> (
      <["video_moddb" := VStr (video_cell d "moddb")]> (
      <["video_vimeo" := VStr (video_cell d "vimeo")]> (
      <["video_youtube" := VStr (video_cell d "youtube")]> ∅)))).
Proof.
  intros Hd. unfold extract_video_info.
  destruct d; [done|]. cbn [truthy negb]. by rewrite video_loop_dict.
Qed.

Lemma extract_video_info_empty : extract_video_info (VDict []) = Ok ∅.
Proof. reflexivity. Qed.

(** ** The record projector *)

(** [process_game_data] returns exactly when the six sequence fields
    flatten and the video field extracts; the row is then the extracted
    video columns laid over the base row. *)
Lemma process_game_data_Ok (game : record) (r : row) :
  process_game_data game = Ok r ↔
  ∃ originals langs frameworks licenses images multiplayer video_info,
    flatten_list (get game "originals" (VList [])) = Ok originals ∧
    flatten_list (get game "langs" (VList [])) = Ok langs ∧
    flatten_list (get game "frameworks" (VList [])) = Ok frameworks ∧
    flatten_list (get game "licenses" (VList [])) = Ok licenses ∧
    flatten_list (get game "images" (VList [])) = Ok images ∧
    flatten_list (get game "multiplayer" (VList [])) = Ok multiplayer ∧
    extract_video_info (get game "video" (VDict [])) = Ok video_info ∧
    r = video_info ∪ base_row game originals langs frameworks licenses images multiplayer.
Proof.
  unfold process_game_data. cbv zeta. split.
  - intros H.
    apply bind_Ok in H as (o & Ho & H). apply bind_Ok in H as (l & Hl & H).
    apply bind_Ok in H as (f & Hf & H). apply bind_Ok in H as (li & Hli & H).
    apply bind_Ok in H as (im & Him & H). apply bind_Ok in H as (mu & Hmu & H).
    apply bind_Ok in H as (vi & Hvi & H). injection H as <-.
    by exists o, l, f, li, im, mu, vi.
  - intros (o & l & f & li & im & mu & vi & Ho & Hl & Hf & Hli & Him & Hmu & Hvi & ->).
    rewrite Ho, Hl, Hf, Hli, Him, Hmu, Hvi. reflexivity.
Qed.

Lemma process_game_data_intro (game : record) (o l f li im mu : string) (vi : row) :
  flatten_list (get game "originals" (VList [])) = Ok o →
  flatten_list (get game "langs" (VList [])) = Ok l →
  flatten_list (get game "frameworks" (VList [])) = Ok f →
  flatten_list (get game "licenses" (VList [])) = Ok li →
  flatten_list (get game "images" (VList [])) = Ok im →
  flatten_list (get game "multiplayer" (VList [])) = Ok mu →
  extract_video_info (get game "video" (VDict [])) = Ok vi →
  process_game_data game = Ok (vi ∪ base_row game o l f li im mu).
Proof.
  intros. apply process_game_data_Ok. by exists o, l, f, li, im, mu, vi.
Qed.

Lemma dom_base_row (game : record) (o l f li im mu : string) :
  dom (base_row game o l f li im mu) = list_to_set (scalar_fields ++ list_fields).
Proof. unfold base_row. rewrite !dom_insert_L, dom_empty_L. by_decide. Qed.

Lemma base_row_scalar (game : record) (o l f li im mu k : string) :
  k ∈ scalar_fields →
  base_row game o l f li im mu !! k = Some (get game k (VStr "")).
Proof. unfold scalar_fields. intros H. each_member H; reflexivity. Qed.

Lemma base_row_list (game : record) (o l f li im mu k : string) :
  k ∈ list_fields →
  base_row game o l f li im mu !! k =
  Some (VStr (if decide (k = "originals") then o
              else if decide (k = "langs") then l
              else if decide (k = "frameworks") then f
              else if decide (k = "licenses") then li
              else if decide (k = "images") then im
              else mu)).
Proof. unfold list_fields. intros H. each_member H; reflexivity. Qed.

Lemma base_row_strings (game : record) (o l f li im mu k : string) (x : value) :
  k ∉ scalar_fields → base_row game o l f li im mu !! k = Some x → is_string x.
Proof.
  intros Hk Hx.
  assert (k ∈ dom (base_row game o l f li im mu)) as Hdom
    by (apply elem_of_dom; eauto).
  rewrite dom_base_row, list_to_set_app_L, elem_of_union, !elem_of_list_to_set in Hdom.
  destruct Hdom as [H|H]; [done|].
  rewrite (base_row_list _ _ _ _ _ _ _ _ H) in Hx. injection Hx as <-. by eexists.
Qed.

Lemma video_fields_not_base (game : record) (o l f li im mu k : string) :
  k ∈ video_fields → base_row game o l f li im mu !! k = None.
Proof.
  intros H. apply not_elem_of_dom. rewrite dom_base_row.
  unfold video_fields, platforms in H. cbn [fmap list_fmap] in H.
  each_member H; by_decide.
Qed.

Lemma process_game_data_total (game : record) :
  well_shaped game → is_Ok (process_game_data game).
Proof.
  intros [Hlist Hvideo].
  assert (∀ k, k ∈ list_fields → is_Ok (flatten_list (get game k (VList [])))) as Hfl.
  { intros k Hk. unfold get. destruct (game !! k) as [v|] eqn:E; [|by eexists].
    destruct (Hlist k Hk v E) as [items ->]. destruct items; by eexists. }
  assert (is_Ok (extract_video_info (get game "video" (VDict [])))) as [vi Hvi].
  { unfold get. destruct (game !! "video") as [v|] eqn:E; [|by eexists].
    destruct (Hvideo v eq_refl) as [d ->]. destruct d as [|kv d]; [by eexists|].
    rewrite extract_video_info_dict by done. by eexists. }
  destruct (Hfl "originals") as [o Ho]; [by_decide|].
  destruct (Hfl "langs") as [l Hl]; [by_decide|].
  destruct (Hfl "frameworks") as [f Hf]; [by_decide|].
  destruct (Hfl "licenses") as [li Hli]; [by_decide|].
  destruct (Hfl "images") as [im Him]; [by_decide|].
  destruct (Hfl "multiplayer") as [mu Hmu]; [by_decide|].
  eexists. apply process_game_data_Ok.
  exists o, l, f, li, im, mu, vi. by repeat split.
Qed.

(** C1 (as amended).  Whenever [process_game_data] returns a row, the key
    set of the row is the 21 canonical column names if the video field of
    the record is truthy (a non-empty mapping), and the 17 canonical names
    other than the four video columns if it is absent or empty; for a
    record without a video field the four video columns are not keys of
    the row at all. *)
Theorem process_game_data_keys (game : record) (r : row) :
  process_game_data game = Ok r →
  dom r = (if truthy (get game "video" (VDict []))
           then list_to_set ordered_fields
           else list_to_set ordered_fields ∖ list_to_set video_fields) ∧
  (game !! "video" = None → ∀ k, k ∈ video_fields → r !! k = None).
Proof.
  intros H. apply process_game_data_Ok in H
    as (o & l & f & li & im & mu & vi & _ & _ & _ & _ & _ & _ & Hvi & ->).
  pose proof (extract_video_info_dom _ _ Hvi) as Hdom.
  split.
  - rewrite dom_union_L, dom_base_row, Hdom.
    destruct (truthy _); by_decide.
  - intros Hno k Hk. unfold get in Hdom. rewrite Hno in Hdom. cbn in Hdom.
    apply lookup_union_None. split.
    + apply not_elem_of_dom. rewrite Hdom. apply not_elem_of_empty.
    + by apply video_fields_not_base.
Qed.

Lemma process_game_data_keys_witness :
  process_game_data game_foo = Ok row_foo ∧
  dom row_foo = list_to_set ordered_fields ∖ list_to_set video_fields ∧
  row_foo !! "video_youtube" = None.
Proof.
  assert (process_game_data game_foo = Ok row_foo) as H by by_decide.
  destruct (process_game_data_keys game_foo row_foo H) as [Hdom Hvideo].
  split; [exact H|]. split; [exact Hdom|].
  apply Hvideo; [reflexivity | by_decide].
Defined.

(** C1 fails as stated: the record [game_foo], which has no video field,
    projects to a row whose key set is not the 21 canonical names; the
    video columns are missing from it, not mapped to the empty string. *)
Lemma process_game_data_keys_counterexample :
  game_foo !! "video" = None ∧
  process_game_data game_foo = Ok row_foo ∧
  dom row_foo ≠ list_to_set ordered_fields ∧
  row_foo !! "video_youtube" ≠ Some (VStr "").
Proof.
  split; [reflexivity|]. split; [by_decide|]. split.
  - unfold row_foo. rewrite dom_base_row. by_decide.
  - unfold row_foo. rewrite video_fields_not_base by by_decide. discriminate.
Qed.




Lemma video_info_not_base (v : value) (vi : row) (k : string) :
  extract_video_info v = Ok vi → k ∈ scalar_fields ++ list_fields → vi !! k = None.
Proof.
  intros Hvi Hk. apply not_elem_of_dom. rewrite (extract_video_info_dom _ _ Hvi).
  destruct (truthy v); [|apply not_elem_of_empty].
  unfold scalar_fields, list_fields in Hk. cbn [app] in Hk.
  each_member Hk; by_decide.
Qed.

(** C7 (as amended).  Whenever [process_game_data] returns a row, each of
    the eleven scalar columns holds the value of the record's field
    unchanged, whatever it is (null, a number, a date, a string), and the
    empty string if the field is absent; every other column of the row (the
    six flattened sequences and the video columns) holds a string, the
    empty string for a sequence field that is absent. *)
Theorem process_game_data_values (game : record) (r : row) :
  process_game_data game = Ok r →
  (∀ k, k ∈ scalar_fields → r !! k = Some (get game k (VStr ""))) ∧
  (∀ k x, k ∉ scalar_fields → r !! k = Some x → is_string x) ∧
  (∀ k, k ∈ scalar_fields ++ list_fields → game !! k = None →
        r !! k = Some (VStr "")).
Proof.
  intros H. apply process_game_data_Ok in H
    as (o & l & f & li & im & mu & vi & Ho & Hl & Hf & Hli & Him & Hmu & Hvi & ->).
  split; [|split].
  - intros k Hk. rewrite lookup_union_r.
    + by apply base_row_scalar.
    + apply (video_info_not_base _ _ _ Hvi), elem_of_app. by left.
  - intros k x Hk Hx. apply lookup_union_Some_raw in Hx as [Hx|[_ Hx]].
    + by apply (extract_video_info_strings _ _ Hvi k).
    + by apply (base_row_strings _ _ _ _ _ _ _ _ _ Hk Hx).
  - intros k Hk Hnone.
    rewrite lookup_union_r by apply (video_info_not_base _ _ _ Hvi Hk).
    apply elem_of_app in Hk as [Hk|Hk].
    + rewrite base_row_scalar by done. unfold get. by rewrite Hnone.
    + rewrite base_row_list by done. unfold get in Ho, Hl, Hf, Hli, Him, Hmu.
      unfold list_fields in Hk.
      each_member Hk; rewrite Hnone in *;
        change (flatten_list (VList [])) with (Ok "") in *;
        simplify_eq; reflexivity.
Qed.

Lemma process_game_data_values_witness :
  process_game_data game_foo = Ok row_foo ∧
  row_foo !! "name" = Some (VStr "Foo") ∧
  row_foo !! "added" = Some (VStr "") ∧
  is_string (VStr "en; fr").
Proof.
  assert (process_game_data game_foo = Ok row_foo) as H by by_decide.
  destruct (process_game_data_values game_foo row_foo H) as (Hscalar & Hother & _).
  split; [exact H|]. split; [|split].
  - apply (Hscalar "name"). by_decide.
  - apply (Hscalar "added"). by_decide.
  - apply (Hother "langs"); [by_decide | reflexivity].
Defined.

(** C7 fails as stated: a record whose name is null projects to a row
    whose name is null, which is not a string. *)
Lemma process_game_data_values_counterexample :
  process_game_data game_null_name = Ok row_null_name ∧
  row_null_name !! "name" = Some (VScalar SNone) ∧
  ¬ is_string (VScalar SNone).
Proof.
  split; [by_decide|]. split; [reflexivity|]. intros [s Hs]. discriminate.
Qed.

(** ** A string where a sequence is expected *)





(** ** Joining and splitting *)



(** ** The field-set resolver *)

Lemma collect_field_names_spec (games : list record) (acc fn : gset string) :
  collect_field_names games acc = Ok fn →
  ∀ k, k ∈ fn ↔
       k ∈ acc ∨ ∃ game r, game ∈ games ∧ process_game_data game = Ok r ∧ k ∈ dom r.
Proof.
  revert acc. induction games as [|game rest IH]; intros acc H k.
  - injection H as <-. split; [by left|].
    intros [Hk|(game & r & Hin & _)]; [done | by apply elem_of_nil in Hin].
  - cbn [collect_field_names] in H. apply bind_Ok in H as (processed & Hp & H).
    rewrite (IH _ H k), elem_of_union. split.
    + intros [[Hk|Hk]|(game' & r & Hin & Hr & Hk)].
      * by left.
      * right. exists game, processed. split; [apply list_elem_of_here | done].
      * right. exists game', r. split; [by apply list_elem_of_further | done].
    + intros [Hk|(game' & r & Hin & Hr & Hk)]; [by left; left|].
      apply elem_of_cons in Hin as [->|Hin].
      * left; right. rewrite Hp in Hr. by injection Hr as ->.
      * right. by exists game', r.
Qed.

Lemma collect_field_names_total (games : list record) (acc : gset string) :
  Forall (fun game => is_Ok (process_game_data game)) games →
  is_Ok (collect_field_names games acc).
Proof.
  intros Hall. revert acc. induction Hall as [|game rest [r Hr] _ IH]; intros acc.
  - by eexists.
  - cbn [collect_field_names]. rewrite Hr. apply IH.
Qed.

Lemma string_le_neq_lt (a b : string) : String.le a b → a ≠ b → string_lt a b.
Proof.
  unfold String.le, string_lt, String.leb, String.ltb.
  destruct (String.compare a b) eqn:E; [|done..].
  intros _ Hne. by apply String.compare_eq_iff in E.
Qed.

Lemma StronglySorted_strict (l : list string) :
  StronglySorted String.le l → NoDup l → StronglySorted string_lt l.
Proof.
  induction 1 as [|x l Hsorted IH Hx]; intros Hnodup; [constructor|].
  apply NoDup_cons in Hnodup as [Hnotin Hnodup].
  constructor; [by apply IH|].
  apply Forall_forall. intros y Hy. apply string_le_neq_lt.
  - by apply (proj1 (Forall_forall _ _) Hx).
  - by intros ->.
Qed.

Lemma py_sorted_elem_of (s : gset string) (k : string) : k ∈ py_sorted s ↔ k ∈ s.
Proof. unfold py_sorted. by rewrite merge_sort_Permutation, elem_of_elements. Qed.

Lemma py_sorted_ascending (s : gset string) : StronglySorted string_lt (py_sorted s).
Proof.
  unfold py_sorted. apply StronglySorted_strict.
  - apply StronglySorted_merge_sort; apply _.
  - rewrite merge_sort_Permutation. apply NoDup_elements.
Qed.

Lemma py_sorted_empty : py_sorted ∅ = [].
Proof. unfold py_sorted. by rewrite elements_empty. Qed.

(** C3.  Whenever the resolver returns, the column list is the canonical
    prefix in its fixed order followed by a list that is strictly ascending,
    disjoint from the prefix, and made of exactly the keys of some record's
    projection that are not in the prefix; the column list contains the
    keys of every projected row.  The resolver returns whenever every
    record projects. *)
Theorem get_all_field_names_columns (games : list record) :
  (Forall (fun game => is_Ok (process_game_data game)) games →
   is_Ok (get_all_field_names games)) ∧
  ∀ cols, get_all_field_names games = Ok cols →
    ∃ additional,
      cols = ordered_fields ++ additional ∧
      StronglySorted string_lt additional ∧
      (∀ k, k ∈ additional → k ∉ ordered_fields) ∧
      (∀ k, k ∈ additional ↔
            ((k ∉ ordered_fields) ∧
             ∃ game r, game ∈ games ∧ process_game_data game = Ok r ∧ k ∈ dom r)) ∧
      (∀ game r, game ∈ games → process_game_data game = Ok r →
                 ∀ k, k ∈ dom r → k ∈ cols).
Proof.
  split.
  - intros Hall. destruct (collect_field_names_total games ∅ Hall) as [fn Hfn].
    unfold get_all_field_names. rewrite Hfn. by eexists.
  - intros cols H. unfold get_all_field_names in H.
    apply bind_Ok in H as (fn & Hfn & H).
    assert (cols = ordered_fields ++ py_sorted (fn ∖ list_to_set ordered_fields))
      as -> by congruence.
    clear H. pose proof (collect_field_names_spec _ _ _ Hfn) as Hspec.
    assert (∀ k, k ∈ py_sorted (fn ∖ list_to_set ordered_fields) ↔
                 ((k ∉ ordered_fields) ∧
                  ∃ game r, game ∈ games ∧ process_game_data game = Ok r ∧ k ∈ dom r))
      as Hadd.
    { intros k.
      rewrite py_sorted_elem_of, elem_of_difference, elem_of_list_to_set, Hspec.
      split.
      - intros [[Hk|Hk] Hnot]; [by apply elem_of_empty in Hk | done].
      - intros [Hnot Hk]. split; [by right | done]. }
    exists (py_sorted (fn ∖ list_to_set ordered_fields)).
    split; [reflexivity|]. split; [apply py_sorted_ascending|].
    split; [|split; [exact Hadd|]].
    + intros k Hk. by apply Hadd in Hk as [Hk _].
    + intros game r Hin Hr k Hk. apply elem_of_app.
      destruct (decide (k ∈ ordered_fields)) as [|Hnot]; [by left|].
      right. apply Hadd. split; [done|]. by exists game, r.
Qed.

Lemma get_all_field_names_columns_witness :
  get_all_field_names [game_foo; game_video] = Ok ordered_fields ∧
  ∃ additional,
    ordered_fields = ordered_fields ++ additional ∧
    StronglySorted string_lt additional ∧
    ("video_youtube" ∈ dom row_foo → "video_youtube" ∈ ordered_fields).
Proof.
  assert (get_all_field_names [game_foo; game_video] = Ok ordered_fields) as H
    by by_decide.
  destruct (get_all_field_names_columns [game_foo; game_video]) as [_ Hcols].
  destruct (Hcols ordered_fields H) as (additional & Hprefix & Hsorted & _ & _ & Hsup).
  split; [exact H|]. exists additional. split; [exact Hprefix|].
  split; [exact Hsorted|].
  apply (Hsup game_foo row_foo); [apply list_elem_of_here | by_decide].
Defined.

Lemma process_game_data_dom_ordered (game : record) (r : row) (k : string) :
  process_game_data game = Ok r → k ∈ dom r → k ∈ ordered_fields.
Proof.
  intros H. apply process_game_data_Ok in H
    as (o & l & f & li & im & mu & vi & _ & _ & _ & _ & _ & _ & Hvi & ->).
  rewrite dom_union_L, dom_base_row, (extract_video_info_dom _ _ Hvi), elem_of_union.
  intros [Hk|Hk].
  - destruct (truthy _); [|by apply elem_of_empty in Hk].
    apply elem_of_list_to_set in Hk. unfold video_fields, platforms in Hk.
    cbn [fmap list_fmap] in Hk. each_member Hk; by_decide.
  - apply elem_of_list_to_set in Hk. unfold scalar_fields, list_fields in Hk.
    cbn [app] in Hk. each_member Hk; by_decide.
Qed.

(** The projector never produces a key outside the canonical prefix, so
    the resolver has nothing to append. *)
Lemma get_all_field_names_fixed (games : list record) (cols : list string) :
  get_all_field_names games = Ok cols → cols = ordered_fields.
Proof.
  unfold get_all_field_names. intros H. apply bind_Ok in H as (fn & Hfn & H).
  assert (fn ∖ list_to_set ordered_fields = ∅) as Hempty.
  { apply set_eq. intros k.
    rewrite elem_of_difference, elem_of_list_to_set, (collect_field_names_spec _ _ _ Hfn).
    split; [|by intros Hk; apply elem_of_empty in Hk].
    intros [[Hk|(game & r & _ & Hr & Hk)] Hnot]; [by apply elem_of_empty in Hk|].
    destruct Hnot. by apply (process_game_data_dom_ordered game r). }
  rewrite Hempty, py_sorted_empty, app_nil_r in H. congruence.
Qed.

(** ** Serialization *)

Lemma dict_to_list_Ok (fieldnames : list string) (r : row) :
  (∀ k, k ∈ dom r → k ∈ fieldnames) →
  dict_to_list fieldnames r = Ok ((fun key => get r key (VStr "")) <$> fieldnames).
Proof.
  intros Hsub. unfold dict_to_list. rewrite bool_decide_eq_true_2; [done|].
  intros k Hk. apply elem_of_list_to_set. by apply Hsub.
Qed.



(** ** The source loader *)

Lemma load_loop_spec (files : list yaml_file) (acc : list record) :
  load_loop files acc =
  (concat (file_lines <$> files), acc ++ concat (records_of <$> files)).
Proof.
  revert acc. induction files as [|[name content] rest IH]; intros acc.
  - cbn. by rewrite app_nil_r.
  - cbn [load_loop fmap list_fmap concat].
    destruct content as [cause|[gs|]]; cbn [load_file].
    + by rewrite IH.
    + case_bool_decide as Hgs; rewrite IH.
      * by rewrite Hgs.
      * unfold records_of at 2. cbn [snd]. by rewrite <- app_assoc.
    + by rewrite IH.
Qed.

Lemma load_games_spec (files : list yaml_file) :
  load_games_from_yaml_files files =
  (concat (file_lines <$> merge_sort file_le files),
   concat (records_of <$> merge_sort file_le files)).
Proof. unfold load_games_from_yaml_files. by rewrite load_loop_spec. Qed.



(** ** The export driver *)

Lemma flatten_list_raises (v : value) (e : exn) :
  flatten_list v = Raise e → e = TypeError.
Proof.
  unfold flatten_list. destruct (truthy v); cbn [negb]; [|discriminate].
  destruct v as [[]| |]; cbn; congruence.
Qed.

Lemma video_loop_raises (ps : list string) (v : value) (res : row) (e : exn) :
  video_loop ps v res = Raise e → e = TypeError.
Proof.
  destruct v as [x|items|d]; [| |by rewrite video_loop_dict].
  - revert res. induction ps as [|p ps IH]; intros res; [discriminate|].
    cbn [video_loop py_contains py_getitem].
    destruct x; cbn; try congruence.
    destruct (is_substring p s); [congruence | apply IH].
  - revert res. induction ps as [|p ps IH]; intros res; [discriminate|].
    cbn [video_loop py_contains py_getitem mbind result_bind].
    destruct (bool_decide _); [congruence | apply IH].
Qed.

Lemma process_game_data_raises (game : record) (e : exn) :
  process_game_data game = Raise e → e = TypeError.
Proof.
  unfold process_game_data. cbv zeta.
  repeat match goal with
  | |- (flatten_list ?v ≫= _) = _ → _ =>
      let E := fresh in
      destruct (flatten_list v) eqn:E;
        [cbn [mbind result_bind]
        |intros [= <-]; by apply flatten_list_raises in E]
  end.
  unfold extract_video_info.
  destruct (truthy _); cbn [negb mbind result_bind]; [|discriminate].
  destruct (video_loop _ _ _) eqn:E; [discriminate|].
  intros [= <-]. by apply video_loop_raises in E.
Qed.

Lemma process_all_raises (games : list record) (e : exn) :
  process_all games = Raise e → e = TypeError.
Proof.
  induction games as [|game rest IH]; [discriminate|].
  cbn [process_all].
  destruct (process_game_data game) eqn:E; cbn [mbind result_bind].
  - destruct (process_all rest); [discriminate|]. intros [= <-]. by apply IH.
  - intros [= <-]. by apply process_game_data_raises in E.
Qed.

Lemma process_all_Forall2 (games : list record) (rows : list row) :
  process_all games = Ok rows ↔
  Forall2 (fun game r => process_game_data game = Ok r) games rows.
Proof.
  revert rows. induction games as [|game rest IH]; intros rows.
  - split; [intros [= <-]; constructor | by inversion 1].
  - cbn [process_all]. split.
    + intros H. apply bind_Ok in H as (r & Hr & H).
      apply bind_Ok in H as (rs & Hrs & H). injection H as <-.
      constructor; [done | by apply IH].
    + inversion 1 as [|? r ? rs Hr Hrs]; subst.
      apply IH in Hrs. by rewrite Hr, Hrs.
Qed.

Lemma collect_field_names_process_all (games : list record) (acc : gset string) :
  match process_all games with
  | Ok _ => is_Ok (collect_field_names games acc)
  | Raise e => collect_field_names games acc = Raise e
  end.
Proof.
  revert acc. induction games as [|game rest IH]; intros acc; [by eexists|].
  cbn [process_all collect_field_names].
  destruct (process_game_data game) as [r|e]; cbn [mbind result_bind]; [|done].
  specialize (IH (acc ∪ dom r)). by destruct (process_all rest).
Qed.

Lemma get_all_field_names_process_all (games : list record) :
  get_all_field_names games =
  match process_all games with
  | Ok _ => Ok ordered_fields
  | Raise e => Raise e
  end.
Proof.
  pose proof (collect_field_names_process_all games ∅) as H.
  destruct (process_all games) as [rows|e].
  - destruct H as [fn Hfn].
    destruct (get_all_field_names games) as [cols|e] eqn:E.
    + by apply get_all_field_names_fixed in E as ->.
    + unfold get_all_field_names in E. by rewrite Hfn in E.
  - unfold get_all_field_names. by rewrite H.
Qed.

Lemma writerows_Ok (rows : list row) :
  Forall (fun r => ∀ k, k ∈ dom r → k ∈ ordered_fields) rows →
  writerows ordered_fields rows =
  (WriteRow <$> (row_cells ordered_fields <$> rows), Ok tt).
Proof.
  induction 1 as [|r rest Hr _ IH]; [reflexivity|].
  cbn [writerows]. by rewrite (dict_to_list_Ok _ _ Hr), IH.
Qed.

Lemma export_to_csv_Ok (games : list record) (rows : list row) (path : string) :
  games ≠ [] → process_all games = Ok rows →
  export_to_csv games path = (export_trace path rows, Ok tt).
Proof.
  intros Hne Hrows. unfold export_to_csv.
  rewrite bool_decide_eq_false_2 by done.
  rewrite get_all_field_names_process_all, Hrows.
  rewrite writerows_Ok.
  { unfold export_trace, writeheader. cbn [app]. by rewrite <- app_assoc. }
  apply process_all_Forall2 in Hrows. clear Hne.
  induction Hrows as [|game r gs rs Hr _ IH]; constructor; [|exact IH].
  intros k. by apply (process_game_data_dom_ordered game).
Qed.

Lemma export_to_csv_Raise (games : list record) (e : exn) (path : string) :
  games ≠ [] → process_all games = Raise e →
  export_to_csv games path = ([], Raise e).
Proof.
  intros Hne Hrows. unfold export_to_csv.
  rewrite bool_decide_eq_false_2 by done.
  by rewrite get_all_field_names_process_all, Hrows.
Qed.

Lemma written_rows_app (l1 l2 : list event) :
  written_rows (l1 ++ l2) = written_rows l1 ++ written_rows l2.
Proof.
  induction l1 as [|[] l1 IH]; cbn [app written_rows]; by rewrite ?IH.
Qed.


Lemma prints_silent (l : list event) :
  Forall (fun e => is_print e = true) l →
  written_rows l = [] ∧ opens_output l = false.
Proof.
  induction 1 as [|[] l He _ [IHw IHo]]; try discriminate; [done|].
  split; [exact IHw | exact IHo].
Qed.

Lemma loading_trace_prints (files : list yaml_file) :
  Forall (fun e => is_print e = true) (loading_trace files).
Proof.
  unfold loading_trace, loading_lines. constructor; [done|].
  induction (merge_sort file_le files) as [|[name [cause|doc]] l IH];
    cbn [fmap list_fmap concat]; [constructor|..]; unfold file_lines; cbn [fst snd app];
    repeat (constructor; [done|]); exact IH.
Qed.

Lemma loaded_trace_prints (files : list yaml_file) :
  Forall (fun e => is_print e = true) (loaded_trace files).
Proof.
  unfold loaded_trace. apply Forall_app. split; [apply loading_trace_prints|].
  by repeat constructor.
Qed.

Lemma main_missing_dir (env : environment) :
  listing env = None →
  main env = ([Print ("Games directory not found: " +:+ games_dir env)],
              Raise (SystemExit 1)).
Proof. unfold main. by intros ->. Qed.

Lemma main_no_games (env : environment) (files : list yaml_file) :
  listing env = Some files → loaded_games files = [] →
  main env = (loading_trace files ++ [Print "No games found in YAML files."],
              Raise (SystemExit 1)).
Proof.
  unfold main. intros -> Hnone. rewrite load_games_spec.
  fold (loaded_games files). by rewrite Hnone.
Qed.

Lemma main_exported (env : environment) (files : list yaml_file) (rows : list row) :
  listing env = Some files → loaded_games files ≠ [] →
  process_all (loaded_games files) = Ok rows →
  main env =
  (loaded_trace files ++ export_trace (output_file env) rows ++
   [Print ("Export complete! CSV file saved to: " +:+ output_file env)], Ok tt).
Proof.
  unfold main. intros -> Hsome Hrows. rewrite load_games_spec.
  fold (loaded_games files). rewrite bool_decide_eq_false_2 by done.
  by rewrite (export_to_csv_Ok _ rows).
Qed.

Lemma main_raised (env : environment) (files : list yaml_file) (e : exn) :
  listing env = Some files → loaded_games files ≠ [] →
  process_all (loaded_games files) = Raise e →
  main env = (loaded_trace files, Raise e).
Proof.
  unfold main. intros -> Hsome Hrows. rewrite load_games_spec.
  fold (loaded_games files). rewrite bool_decide_eq_false_2 by done.
  rewrite (export_to_csv_Raise _ e) by done. by rewrite app_nil_r.
Qed.

Lemma export_trace_rows (path : string) (rows : list row) :
  written_rows (export_trace path rows) =
  (VStr <$> ordered_fields) :: (row_cells ordered_fields <$> rows).
Proof.
  unfold export_trace. cbn [written_rows]. rewrite written_rows_app.
  cbn [written_rows]. rewrite app_nil_r. f_equal.
  induction (row_cells ordered_fields <$> rows) as [|c l IH]; [done|].
  cbn [fmap list_fmap written_rows]. by rewrite IH.
Qed.










(** * Further properties of the code *)

(** ** [flatten_dict] and [flatten_list] *)





(** ** [extract_video_info] on values that are not mappings *)

(** The loop on a string or a sequence: [platform in video_data] is a
    substring or a membership test, and indexing by the platform raises. *)
Lemma video_loop_not_dict (ps : list string) (v : value) (res : row)
    (mentions : string → bool) :
  (∀ p, py_contains p v = Ok (mentions p)) →
  (∀ p, py_getitem v p = Raise TypeError) →
  video_loop ps v res =
  if forallb (fun p => negb (mentions p)) ps
  then Ok (foldl (fun r p => <[video_column p := VStr ""]> r) res ps)
  else Raise TypeError.
Proof.
  intros Hin Hget. revert res. induction ps as [|p ps IH]; intros res; [done|].
  cbn [video_loop forallb foldl]. rewrite Hin. cbn [mbind result_bind].
  destruct (mentions p); cbn [negb andb]; [by rewrite Hget | apply IH].
Qed.

Lemma extract_video_info_cases (v : value) :
  extract_video_info v =
  if extracts v
  then (if truthy v
        then match v with
             | VDict d => extract_video_info (VDict d)
             | _ => Ok empty_video_columns
             end
        else Ok ∅)
  else Raise TypeError.
Proof.
  assert (truthy v = false → extract_video_info v = Ok ∅) as Hfalsy.
  { unfold extract_video_info. by intros ->. }
  destruct (truthy v) eqn:Htruthy.
  2:{ rewrite (Hfalsy eq_refl).
      destruct v as [[| [] | n | [] t | s | iso] | [|x items] | [|kv d]];
        try discriminate; try reflexivity; cbn in Htruthy |- *.
      - by rewrite Htruthy.
      - by destruct s. }
  unfold extract_video_info at 1. rewrite Htruthy. cbn [negb].
  destruct v as [x|items|d];
    [| |cbn [extracts]; unfold extract_video_info; by rewrite Htruthy].
  - destruct x as [| b | n | nz t | s | iso];
      try (cbn in Htruthy |- *; by rewrite ?Htruthy).
    rewrite (video_loop_not_dict _ _ _ (fun p => is_substring p s)) by done.
    unfold extracts. by destruct (forallb _ platforms).
  - rewrite (video_loop_not_dict _ _ _ (fun p => bool_decide (SStr p ∈ items)))
      by done.
    unfold extracts. by destruct (forallb _ platforms).
Qed.



(** ** Which records project *)

Lemma flatten_list_is_Ok (v : value) : is_Ok (flatten_list v) ↔ flattens v = true.
Proof.
  unfold flatten_list.
  destruct v as [[| [] | n | [] t | s | iso] | [|x items] | [|kv d]]; cbn;
    try destruct (n =? 0)%Z; try destruct (String.eqb s ""); cbn;
    split; try done; try (by eexists); by intros [? ?].
Qed.

Lemma extract_video_info_is_Ok (v : value) :
  is_Ok (extract_video_info v) ↔ extracts v = true.
Proof.
  rewrite extract_video_info_cases. destruct (extracts v); split; try done.
  - intros _. destruct (truthy v); [|by eexists].
    destruct v as [x|items|[|kv d]]; try by eexists.
    rewrite extract_video_info_dict by done. by eexists.
  - by intros [? ?].
Qed.

Lemma process_game_data_is_Ok (game : record) :
  is_Ok (process_game_data game) ↔ projectable game = true.
Proof.
  unfold projectable, list_fields. cbn [forallb].
  rewrite !andb_true_iff, <- !flatten_list_is_Ok, <- extract_video_info_is_Ok.
  split.
  - intros [r H]. apply process_game_data_Ok in H
      as (o & l & f & li & im & mu & vi & Ho & Hl & Hf & Hli & Him & Hmu & Hvi & _).
    unfold is_Ok. naive_solver.
  - intros [([o Ho] & [l Hl] & [f Hf] & [li Hli] & [im Him] & [mu Hmu] & _) [vi Hvi]].
    eexists. by apply (process_game_data_intro game o l f li im mu vi).
Qed.

Lemma process_all_is_Ok (games : list record) :
  is_Ok (process_all games) ↔ forallb projectable games = true.
Proof.
  induction games as [|game rest IH]; [by split; [|eexists]|].
  cbn [process_all forallb]. rewrite andb_true_iff, <- IH, <- process_game_data_is_Ok.
  split.
  - intros [rows H]. apply bind_Ok in H as (r & Hr & H).
    apply bind_Ok in H as (rs & Hrs & _). split; by eexists.
  - intros [[r Hr] [rs Hrs]]. rewrite Hr, Hrs. by eexists.
Qed.



(** X5.  [process_game_data] reads only the eighteen fields it knows: two
    records that agree on these fields have the same projection, so keys
    it does not know are ignored. *)
Theorem process_game_data_ignores_other_fields (game1 game2 : record) :
  (∀ k, k ∈ recognized_fields → game1 !! k = game2 !! k) →
  process_game_data game1 = process_game_data game2.
Proof.
  intros Hagree.
  assert (∀ k default, k ∈ recognized_fields →
            get game1 k default = get game2 k default) as Hget.
  { intros k default Hk. unfold get. by rewrite (Hagree k Hk). }
  unfold process_game_data.
  repeat match goal with
  | |- context [get game1 ?k ?d] => rewrite (Hget k d) by by_decide
  end.
  reflexivity.
Qed.

Lemma process_game_data_ignores_other_fields_witness :
  process_game_data game_foo_extra = process_game_data game_foo.
Proof.
  apply process_game_data_ignores_other_fields.
  intros k Hk. unfold game_foo_extra. apply lookup_insert_ne.
  intros <-. revert Hk. by_decide.
Defined.

(** ** What the cells of a projected row hold *)

Lemma process_game_data_list_cell (game : record) (r : row) (k : string) :
  process_game_data game = Ok r → k ∈ list_fields →
  ∃ s, flatten_list (get game k (VList [])) = Ok s ∧ r !! k = Some (VStr s).
Proof.
  intros H Hk. apply process_game_data_Ok in H
    as (o & l & f & li & im & mu & vi & Ho & Hl & Hf & Hli & Him & Hmu & Hvi & ->).
  rewrite lookup_union_r
    by (apply (video_info_not_base _ _ _ Hvi), elem_of_app; by right).
  rewrite base_row_list by done. unfold list_fields in Hk.
  each_member Hk; eexists; (split; [eassumption | reflexivity]).
Qed.

(** X6.  In a projected row the cell of a sequence field that holds a
    sequence is the string forms of its items joined by ["; "] (the empty
    string for the empty sequence), and the cell of a sequence field that
    holds a non-empty mapping is the mapping's keys joined by ["; "]: the
    values of the mapping are lost. *)
Theorem process_game_data_sequence_cell (game : record) (r : row) (k : string) :
  process_game_data game = Ok r → k ∈ list_fields →
  (∀ items, game !! k = Some (VList items) →
     r !! k = Some (VStr (join "; " (py_str <$> items)))) ∧
  (∀ d, d ≠ [] → game !! k = Some (VDict d) →
     r !! k = Some (VStr (join "; " d.*1))).
Proof.
  intros H Hk.
  destruct (process_game_data_list_cell game r k H Hk) as (s & Hs & Hr).
  unfold get in Hs. split.
  - intros items Hitems. rewrite Hitems in Hs. rewrite Hr.
    destruct items as [|x items];
      [change (flatten_list (VList [])) with (Ok "") in Hs
      |rewrite flatten_list_nonempty in Hs];
      by injection Hs as <-.
  - intros d Hd Hdict. rewrite Hdict in Hs. rewrite Hr.
    destruct d as [|kv d]; [done|].
    unfold flatten_list in Hs. cbn [truthy negb py_iter mbind result_bind] in Hs.
    rewrite py_str_SStr in Hs. by injection Hs as <-.
Qed.

Lemma process_game_data_sequence_cell_witness :
  process_game_data game_foo = Ok row_foo ∧
  row_foo !! "langs" = Some (VStr "en; fr").
Proof.
  assert (process_game_data game_foo = Ok row_foo) as H by by_decide.
  destruct (process_game_data_sequence_cell game_foo row_foo "langs" H) as [Hlist _];
    [by_decide|].
  split; [exact H|]. by apply (Hlist [SStr "en"; SStr "fr"]).
Defined.

(** X7.  In the projected row of a record whose video field is a non-empty
    mapping, the column of each platform holds the string form of the
    mapping's value for that platform, and the empty string if the mapping
    has no such key; a top-level field of the record named like a video
    column does not reach the row. *)
Theorem process_game_data_video_cells (game : record) (r : row)
    (d : list (string * scalar)) :
  process_game_data game = Ok r →
  game !! "video" = Some (VDict d) → d ≠ [] →
  ∀ p, p ∈ platforms → r !! video_column p = Some (VStr (video_cell d p)).
Proof.
  intros H Hvideo Hd p Hp. apply process_game_data_Ok in H
    as (o & l & f & li & im & mu & vi & _ & _ & _ & _ & _ & _ & Hvi & ->).
  unfold get in Hvi. rewrite Hvideo, extract_video_info_dict in Hvi by done.
  assert (vi = <["video_indiedb" := VStr (video_cell d "indiedb")]> (
               <["video_moddb" := VStr (video_cell d "moddb")]> (
               <["video_vimeo" := VStr (video_cell d "vimeo")]> (
               <["video_youtube" := VStr (video_cell d "youtube")]> ∅))))
    as -> by congruence.
  apply lookup_union_Some_l. unfold platforms in Hp. each_member Hp; reflexivity.
Qed.

Lemma process_game_data_video_cells_witness :
  process_game_data game_video = Ok row_video ∧
  row_video !! "video_youtube" = Some (VStr "http://x") ∧
  row_video !! "video_moddb" = Some (VStr "").
Proof.
  assert (process_game_data game_video = Ok row_video) as H by by_decide.
  pose proof (process_game_data_video_cells game_video row_video video_x H eq_refl)
    as Hcells.
  split; [exact H|]. split.
  - apply (Hcells ltac:(discriminate) "youtube"). by_decide.
  - apply (Hcells ltac:(discriminate) "moddb"). by_decide.
Defined.

(** ** The column list is a constant *)



(** ** The loader and the order of the directory listing *)

Lemma NoDup_fst_eq {A B} (l : list (A * B)) (x y : A * B) :
  NoDup l.*1 → x ∈ l → y ∈ l → x.1 = y.1 → x = y.
Proof.
  induction l as [|z l IH]; intros Hnd Hx Hy Heq; [by apply elem_of_nil in Hx|].
  cbn [fmap list_fmap] in Hnd. apply NoDup_cons in Hnd as [Hz Hnd].
  apply elem_of_cons in Hx as [->|Hx]; apply elem_of_cons in Hy as [->|Hy]; [done|..].
  - destruct Hz. rewrite Heq. by apply list_elem_of_fmap_2.
  - destruct Hz. rewrite <- Heq. by apply list_elem_of_fmap_2.
  - by apply IH.
Qed.

(** X9.  The loader does not depend on the order in which the file system
    lists the directory: two listings of the same files (file names being
    unique) give the same printed lines and the same records, in the same
    order. *)
Theorem load_order_independent (files1 files2 : list yaml_file) :
  NoDup files1.*1 → files1 ≡ₚ files2 →
  load_games_from_yaml_files files1 = load_games_from_yaml_files files2.
Proof.
  intros Hnd Hperm. unfold load_games_from_yaml_files.
  assert (merge_sort file_le files1 = merge_sort file_le files2) as ->; [|done].
  apply (StronglySorted_unique_strong file_le).
  - intros x1 x2 Hx1 Hx2 H12 H21.
    apply (NoDup_fst_eq files1); [done|..].
    + by rewrite merge_sort_Permutation in Hx1.
    + rewrite merge_sort_Permutation in Hx2. by rewrite Hperm.
    + by apply (anti_symm String.le).
  - apply StronglySorted_merge_sort; apply _.
  - apply StronglySorted_merge_sort; apply _.
  - by rewrite !merge_sort_Permutation.
Qed.

Lemma load_order_independent_witness :
  load_games_from_yaml_files files_ab = load_games_from_yaml_files files_ba.
Proof.
  apply load_order_independent; [by_decide|].
  unfold files_ab, files_ba. apply Permutation_swap.
Defined.

(** ** The export writes everything or nothing *)



(** ** Whole runs *)

(** The trace and the result of a run, case by case. *)
Lemma main_cases (env : environment) :
  match listing env with
  | None =>
      main env = ([Print ("Games directory not found: " +:+ games_dir env)],
                  Raise (SystemExit 1))
  | Some files =>
      (load_games_from_yaml_files files).2 = loaded_games files ∧
      if decide (loaded_games files = []) then
        main env = (loading_trace files ++ [Print "No games found in YAML files."],
                    Raise (SystemExit 1))
      else
        match process_all (loaded_games files) with
        | Ok rows =>
            forallb projectable (loaded_games files) = true ∧
            length rows = length (loaded_games files) ∧
            main env =
              (loaded_trace files ++ export_trace (output_file env) rows ++
               [Print ("Export complete! CSV file saved to: " +:+ output_file env)],
               Ok tt)
        | Raise e =>
            forallb projectable (loaded_games files) = false ∧
            e = TypeError ∧ main env = (loaded_trace files, Raise TypeError)
        end
  end.
Proof.
  destruct (listing env) as [files|] eqn:Henv; [|by apply main_missing_dir].
  split; [by rewrite load_games_spec|].
  destruct (decide (loaded_games files = [])) as [Hnone|Hsome];
    [by apply main_no_games|].
  pose proof (process_all_is_Ok (loaded_games files)) as Hok.
  destruct (process_all (loaded_games files)) as [rows|e] eqn:Hrows.
  - split; [apply Hok; by eexists|]. split; [|by apply main_exported].
    symmetry. apply process_all_Forall2 in Hrows. by eapply Forall2_length.
  - pose proof Hrows as ->%process_all_raises. split; [|by split; [|apply main_raised]].
    destruct (forallb projectable (loaded_games files)); [|done].
    destruct (proj2 Hok eq_refl) as [? ?]. discriminate.
Qed.

(** X11.  The table a run writes is rectangular: every row written to the
    output file, the header included, has exactly 21 cells, and if anything
    is written the first row is the header with the 21 canonical names. *)
Theorem written_table_rectangular (env : environment) :
  Forall (fun cells => length cells = 21%nat) (written_rows (run env).1) ∧
  (written_rows (run env).1 = [] ∨
   head (written_rows (run env).1) = Some (VStr <$> ordered_fields)).
Proof.
  pose proof (main_cases env) as Hmain. unfold run.
  destruct (listing env) as [files|].
  2:{ rewrite Hmain. by split; [constructor | left]. }
  destruct Hmain as [_ Hmain].
  destruct (decide (loaded_games files = [])).
  { rewrite Hmain. cbn [fst]. rewrite written_rows_app.
    rewrite (proj1 (prints_silent _ (loading_trace_prints files))).
    by split; [constructor | left]. }
  destruct (process_all (loaded_games files)) as [rows|e].
  - destruct Hmain as (_ & _ & ->). cbn [fst].
    rewrite !written_rows_app, export_trace_rows.
    rewrite (proj1 (prints_silent _ (loaded_trace_prints files))).
    cbn [app written_rows]. rewrite app_nil_r. split; [|by right].
    constructor; [reflexivity|]. apply Forall_fmap, Forall_forall.
    intros r _. unfold row_cells. cbn [compose]. by rewrite length_fmap.
  - destruct Hmain as (_ & _ & ->). cbn [fst].
    rewrite (proj1 (prints_silent _ (loaded_trace_prints files))).
    by split; [constructor | left].
Qed.



(** X13.  In a run that exits zero, the number of games the script reports
    as loaded and the number it reports as exported are both the number of
    data rows written, and the last line printed announces the output
    file. *)
Theorem run_reports_row_count (env : environment) (out : list event) :
  run env = (out, 0%Z) →
  let n := show_nat (length (data_rows out)) in
  Print ("Loaded " +:+ n +:+ " games from YAML files.") ∈ out ∧
  Print ("Exported " +:+ n +:+ " games to " +:+ output_file env) ∈ out ∧
  last out = Some (Print ("Export complete! CSV file saved to: "
                          +:+ output_file env)).
Proof.
  intros Hrun. pose proof (main_cases env) as Hmain. unfold run in Hrun.
  destruct (listing env) as [files|]; [|rewrite Hmain in Hrun; discriminate].
  destruct Hmain as [_ Hmain].
  destruct (decide (loaded_games files = []));
    [rewrite Hmain in Hrun; discriminate|].
  destruct (process_all (loaded_games files)) as [rows|e];
    [|destruct Hmain as (_ & _ & Hmain); rewrite Hmain in Hrun; discriminate].
  destruct Hmain as (_ & Hlen & Hmain). rewrite Hmain in Hrun.
  assert (out = loaded_trace files ++ export_trace (output_file env) rows ++
            [Print ("Export complete! CSV file saved to: " +:+ output_file env)])
    as -> by congruence.
  assert (length (data_rows (loaded_trace files ++
            export_trace (output_file env) rows ++
            [Print ("Export complete! CSV file saved to: " +:+ output_file env)]))
          = length rows) as Hdata.
  { unfold data_rows. rewrite !written_rows_app, export_trace_rows.
    rewrite (proj1 (prints_silent _ (loaded_trace_prints files))).
    cbn [app tail written_rows]. by rewrite app_nil_r, length_fmap. }
  cbv zeta. rewrite Hdata. split; [|split].
  - apply elem_of_app. left. unfold loaded_trace. apply elem_of_app. right.
    rewrite Hlen. apply list_elem_of_here.
  - apply elem_of_app. right. apply elem_of_app. left. unfold export_trace.
    do 2 apply list_elem_of_further. apply elem_of_app. right.
    apply list_elem_of_further, list_elem_of_here.
  - by rewrite !app_assoc, last_snoc.
Qed.

Lemma run_reports_row_count_witness :
  run env_ab = ((run env_ab).1, 0%Z) ∧
  Print "Loaded 2 games from YAML files." ∈ (run env_ab).1 ∧
  Print "Exported 2 games to /repo/games_export.csv" ∈ (run env_ab).1.
Proof.
  assert (run env_ab = ((run env_ab).1, 0%Z)) as Hrun by by_decide.
  destruct (run_reports_row_count env_ab _ Hrun) as (Hloaded & Hexported & _).
  assert (length (data_rows (run env_ab).1) = 2%nat) as Hn by by_decide.
  rewrite Hn in Hloaded, Hexported.
  split; [exact Hrun|]. split; [exact Hloaded | exact Hexported].
Defined.

(** ** Failed files leave no trace in the records *)

Lemma StronglySorted_filter {A} (R : relation A) (P : A → Prop)
    `{!∀ x, Decision (P x)} (l : list A) :
  StronglySorted R l → StronglySorted R (filter P l).
Proof.
  induction 1 as [|x l Hl IH Hx]; [constructor|].
  rewrite filter_cons. destruct (decide (P x)); [|exact IH].
  constructor; [exact IH|]. apply Forall_forall. intros y Hy.
  apply list_elem_of_filter in Hy as [_ Hy].
  by apply (proj1 (Forall_forall _ _) Hx).
Qed.

Lemma records_of_filter_parsed (l : list yaml_file) :
  concat (records_of <$> filter (fun f => is_parsed f = true) l) =
  concat (records_of <$> l).
Proof.
  induction l as [|[name [cause|doc]] l IH]; [done|..].
  - rewrite filter_cons_False by done. cbn [fmap list_fmap concat]. by rewrite IH.
  - rewrite filter_cons_True by done. cbn [fmap list_fmap concat]. by rewrite IH.
Qed.

(** X14.  Only the failed files are skipped: with unique file names, the
    records the loader returns are those it returns when the files that
    fail to open or parse are not in the directory at all. *)
Theorem load_without_failed_files (files : list yaml_file) :
  NoDup files.*1 →
  (load_games_from_yaml_files (filter (fun f => is_parsed f = true) files)).2 =
  (load_games_from_yaml_files files).2.
Proof.
  intros Hnd. rewrite !load_games_spec. cbn [snd].
  rewrite <- (records_of_filter_parsed (merge_sort file_le files)).
  f_equal. f_equal.
  apply (StronglySorted_unique_strong file_le).
  - intros x1 x2 Hx1 Hx2 H12 H21.
    apply (NoDup_fst_eq files); [done|..].
    + rewrite merge_sort_Permutation in Hx1. by apply list_elem_of_filter in Hx1 as [_ ?].
    + apply list_elem_of_filter in Hx2 as [_ Hx2].
      by rewrite merge_sort_Permutation in Hx2.
    + by apply (anti_symm String.le).
  - apply StronglySorted_merge_sort; apply _.
  - apply StronglySorted_filter, StronglySorted_merge_sort; apply _.
  - by rewrite !merge_sort_Permutation.
Qed.

Lemma load_without_failed_files_witness :
  filter (fun f => is_parsed f = true) files_ab =
    [("a.yaml", Parsed (Some [game_foo; game_video]))] ∧
  (load_games_from_yaml_files [("a.yaml", Parsed (Some [game_foo; game_video]))]).2 =
  (load_games_from_yaml_files files_ab).2.
Proof.
  assert (filter (fun f => is_parsed f = true) files_ab =
          [("a.yaml", Parsed (Some [game_foo; game_video]))]) as Hfilter
    by reflexivity.
  split; [exact Hfilter|]. rewrite <- Hfilter.
  apply load_without_failed_files. by_decide.
Defined.
